(** * Netzob: the aggregate (AND) node of the variable grammar

    A shallow embedding of [netzob/Common/Models/Vocabulary/Domain/
    Variables/Nodes/Agg.py].  The Python methods [Agg.isDefined],
    [Agg.read], [Agg.write] and [Agg.buildRegex] are written as
    computations in a small monad that threads the Python objects the
    methods touch (the aggregate itself, the processing token, the random
    generator, the state of the children), may raise, and records the
    calls leaving the aggregate.

    Calls to the logger are left out: they act on no object modelled here. *)

From Stdlib Require Import List String Ascii Bool Arith Lia Permutation Sorted.
Import ListNotations.
Local Open Scope string_scope.
Local Open Scope list_scope.
Local Open Scope nat_scope.

(** ** Processing tokens *)

(** The three token classes imported by [Agg.py]; the reading and the
    writing token are the subclasses of the abstract one. *)
Inductive TokenClass : Type :=
| AbstractVariableProcessingToken
| VariableReadingToken
| VariableWritingToken.

Definition TokenClass_eqb (a b : TokenClass) : bool :=
  match a, b with
  | AbstractVariableProcessingToken, AbstractVariableProcessingToken => true
  | VariableReadingToken, VariableReadingToken => true
  | VariableWritingToken, VariableWritingToken => true
  | _, _ => false
  end.

(** Python's [isinstance] on the token classes. *)
Definition isinstance (cls expected : TokenClass) : bool :=
  match expected with
  | AbstractVariableProcessingToken => true
  | _ => TokenClass_eqb cls expected
  end.

(** Modelled from the spec: the token classes are not part of [Agg.py].
    A token carries a success flag (the attribute [Ok] the aggregate
    assigns), a cursor, the accumulated value and the shared memory of
    variable bindings. *)
Record Token : Type := mkToken {
  tokenClass : TokenClass;
  Ok : bool;
  position : nat;
  tokenValue : string;
  memory : list (nat * string)
}.

Definition setOk (b : bool) (t : Token) : Token :=
  {| tokenClass := tokenClass t; Ok := b; position := position t;
     tokenValue := tokenValue t; memory := memory t |}.

(** ** Patterns *)

(** Modelled from the spec: [NetzobRegex] is not part of [Agg.py].  A
    pattern is the text of the regular expression (what [print] shows in
    the doctest of [Agg.buildRegex]) together with the set of strings it
    matches, given as a decision function. *)
Record NetzobRegex : Type := mkRegex {
  regexText : string;
  regexMatches : string -> bool
}.

(** All the ways of cutting a string in two, shortest prefix first. *)
Fixpoint splits (s : string) : list (string * string) :=
  match s with
  | EmptyString => [(EmptyString, EmptyString)]
  | String a s' =>
      (EmptyString, s) :: map (fun p => (String a (fst p), snd p)) (splits s')
  end.

(** A string matches a sequence of patterns when it can be cut in
    consecutive pieces matched by the patterns, one each, in order. *)
Fixpoint matchesInOrder (ms : list (string -> bool)) (s : string) : bool :=
  match ms with
  | [] => match s with EmptyString => true | _ => false end
  | m :: ms' =>
      existsb (fun p => m (fst p) && matchesInOrder ms' (snd p)) (splits s)
  end.

(** Python's [join] on the empty separator. *)
Definition join (l : list string) : string := fold_right String.append EmptyString l.

(** Modelled from the spec: the pattern builder
    [NetzobRegex.buildRegexForAggregateRegexes], not part of [Agg.py]:
    "given a sequence of child patterns, produces one combined pattern
    representing their ordered concatenation". *)
Definition buildRegexForAggregateRegexes (regexes : list NetzobRegex)
  : NetzobRegex :=
  {| regexText := join (map regexText regexes);
     regexMatches := matchesInOrder (map regexMatches regexes) |}.

(** ** The objects around an aggregate *)

(** What a child can reach when one of its methods runs: the token it is
    handed, the random generator of the interpreter (the draws it will
    give), and the state of the objects below the aggregate -- the child
    itself and whatever it owns.  The type of that state is left open. *)
Record Env (Store : Type) : Type := mkEnv {
  token : Token;
  random : list nat;
  store : Store
}.
Arguments mkEnv {Store} token random store.
Arguments token {Store} e.
Arguments random {Store} e.
Arguments store {Store} e.

(** ** Nodes *)

(** Modelled from the spec: the node interface of the children
    ([AbstractVariable] and the sibling node kinds are not part of
    [Agg.py]).  A child is known by what its four methods do:
    [isDefined(token) -> bool] is a check without side effect (it draws
    nothing from the generator, which it could not do without changing
    it); [read] and [write] work on the token they are given and may change
    the child's own state and draw from the generator; [buildRegex] takes
    no token and changes nothing. *)
Record Child (Store : Type) : Type := mkChild {
  cid : nat;
  child_isDefined : Token -> Store -> bool;
  child_read : Env Store -> Env Store;
  child_write : Env Store -> Env Store;
  child_buildRegex : Store -> NetzobRegex
}.
Arguments mkChild {Store} cid child_isDefined child_read child_write
  child_buildRegex.
Arguments cid {Store} c.
Arguments child_isDefined {Store} c t s.
Arguments child_read {Store} c e.
Arguments child_write {Store} c e.
Arguments child_buildRegex {Store} c s.

(** The state of an aggregate: the attributes [Agg.py] reads, and the
    chopped indexes that [resetTokenChoppedIndexes] clears. *)
Record Agg (Store : Type) : Type := mkAgg {
  children : list (Child Store);
  mutable : bool;
  currentValue : string;
  tokenChoppedIndexes : list nat
}.
Arguments mkAgg {Store} children mutable currentValue tokenChoppedIndexes.
Arguments children {Store} a.
Arguments mutable {Store} a.
Arguments currentValue {Store} a.
Arguments tokenChoppedIndexes {Store} a.

(** ** The Python objects in play *)

Record World (Store : Type) : Type := mkWorld {
  self : Agg Store;        (* the aggregate the method is called on *)
  env : Env Store          (* the token, the generator, the children *)
}.
Arguments mkWorld {Store} self env.
Arguments self {Store} w.
Arguments env {Store} w.

(** What a caller hands over as the token argument. *)
Inductive PyArg : Type :=
| PyNone                   (* None *)
| PyToken                  (* a reference to the token object *)
| PyObject.                (* some object that is no processing token *)

Inductive Exn : Type :=
| TypeError (msg : string).

Inductive Result (A : Type) : Type :=
| Return (a : A)
| Raise (e : Exn).
Arguments Return {A} a.
Arguments Raise {A} e.

(** The calls that leave the aggregate, in the order they are made. *)
Inductive Event : Type :=
| CallIsDefined (child : nat)
| CallRead (child : nat)
| CallWrite (child : nat)
| CallBuildRegex (child : nat)
| SortChildrenToRead
| ShuffleChildren
| ResetTokenChoppedIndexes
| Notify (access : string) (value : option string).

(** ** The monad *)

Definition M (Store A : Type) : Type :=
  World Store -> Result A * World Store * list Event.

Definition ret {Store A} (a : A) : M Store A := fun w => (Return a, w, []).
Definition raise {Store A} (e : Exn) : M Store A := fun w => (Raise e, w, []).
Definition bind {Store A B} (m : M Store A) (f : A -> M Store B) : M Store B :=
  fun w =>
    match m w with
    | (Return a, w1, e1) =>
        match f a w1 with
        | (r, w2, e2) => (r, w2, e1 ++ e2)
        end
    | (Raise x, w1, e1) => (Raise x, w1, e1)
    end.

Notation "x <- m ;; k" := (bind m (fun x => k))
  (at level 61, m at next level, right associativity).
Notation "m ;; k" := (bind m (fun _ => k))
  (at level 61, right associativity).

Definition gets {Store A} (f : World Store -> A) : M Store A :=
  fun w => (Return (f w), w, []).
Definition modify {Store} (f : World Store -> World Store) : M Store unit :=
  fun w => (Return tt, f w, []).
Definition emit {Store} (e : Event) : M Store unit :=
  fun w => (Return tt, w, [e]).

(** The three components of an outcome. *)
Definition result {Store A} (o : Result A * World Store * list Event)
  : Result A := fst (fst o).
Definition world {Store A} (o : Result A * World Store * list Event)
  : World Store := snd (fst o).
Definition events {Store A} (o : Result A * World Store * list Event)
  : list Event := snd o.

(** An outcome with earlier events put in front. *)
Definition preceded {Store A} (e1 : list Event)
  (o : Result A * World Store * list Event)
  : Result A * World Store * list Event :=
  match o with (r, w, e2) => (r, w, e1 ++ e2) end.

Definition is_None (arg : PyArg) : bool :=
  match arg with PyNone => true | _ => false end.

(** Putting [x] at place [n] of [l] (at the end when [l] is shorter). *)
Fixpoint insertAt {A} (n : nat) (x : A) (l : list A) : list A :=
  match n, l with
  | 0, _ => x :: l
  | S n', y :: l' => y :: insertAt n' x l'
  | S _, [] => [x]
  end.

(** A shuffle driven by the draws of the random generator: each element is
    put at a drawn place among those already placed.  Returns the draws
    left over. *)
Fixpoint shuffle {A} (draws : list nat) (l : list A) : list A * list nat :=
  match l with
  | [] => ([], draws)
  | x :: l' =>
      let (placed, left) := shuffle draws l' in
      match left with
      | [] => (x :: placed, [])
      | r :: left' => (insertAt (r mod S (List.length placed)) x placed, left')
      end
  end.

(** Stable insertion sort on a rank, smallest rank first. *)
Fixpoint insertByRank {A} (rank : A -> nat) (x : A) (l : list A) : list A :=
  match l with
  | [] => [x]
  | y :: l' =>
      if rank x <=? rank y then x :: y :: l' else y :: insertByRank rank x l'
  end.

Definition sortByRank {A} (rank : A -> nat) (l : list A) : list A :=
  fold_right (insertByRank rank) [] l.

Section Model.

Context {Store : Type}.

Definition setToken (t : Token) (e : Env Store) : Env Store :=
  {| token := t; random := random e; store := store e |}.
Definition setRandom (r : list nat) (e : Env Store) : Env Store :=
  {| token := token e; random := r; store := store e |}.

Definition withSelf (a : Agg Store) (w : World Store) : World Store :=
  {| self := a; env := env w |}.
Definition withEnv (e : Env Store) (w : World Store) : World Store :=
  {| self := self w; env := e |}.
Definition withToken (t : Token) (w : World Store) : World Store :=
  withEnv (setToken t (env w)) w.
Definition withRandom (r : list nat) (w : World Store) : World Store :=
  withEnv (setRandom r (env w)) w.

(** ** Calls on the children *)

Definition call_isDefined (child : Child Store) : M Store bool :=
  emit (CallIsDefined (cid child)) ;;
  gets (fun w => child_isDefined child (token (env w)) (store (env w))).

(** A call of [child.read(token)] or [child.write(token)]: the method
    works on the token it is handed, on the child and on the generator, not
    on the aggregate that calls it. *)
Definition call_method (ev : nat -> Event)
  (method : Child Store -> Env Store -> Env Store)
  (child : Child Store) : M Store unit :=
  emit (ev (cid child)) ;;
  modify (fun w => withEnv (method child (env w)) w).

Definition call_read : Child Store -> M Store unit :=
  call_method CallRead child_read.
Definition call_write : Child Store -> M Store unit :=
  call_method CallWrite child_write.

Definition call_buildRegex (child : Child Store) : M Store NetzobRegex :=
  emit (CallBuildRegex (cid child)) ;;
  gets (fun w => child_buildRegex child (store (env w))).

(** ** The decorator *)

(** Modelled from the spec: the decorator [typeCheck] of
    [netzob.Common.Utils.Decorators], not part of [Agg.py].  The methods
    document [:raise: TypeError if parameter is not Valid] and name the
    class of the parameter; [None] is left to the test each method makes
    itself. *)
Definition typeCheck (expected : TokenClass) (arg : PyArg) : M Store unit :=
  match arg with
  | PyNone => ret tt
  | PyToken =>
      cls <- gets (fun w => tokenClass (token (env w))) ;;
      if isinstance cls expected then ret tt
      else raise (TypeError "Invalid type for arguments")
  | PyObject => raise (TypeError "Invalid type for arguments")
  end.

(** ** [Agg.isDefined] *)

(** The loop [for child in self.children: if not child.isDefined(...):
    return False] followed by [return True]. *)
Fixpoint isDefined_for (cs : list (Child Store)) : M Store bool :=
  match cs with
  | [] => ret true
  | child :: rest =>
      d <- call_isDefined child ;;
      if negb d then ret false else isDefined_for rest
  end.

Definition isDefined (processingToken : PyArg) : M Store bool :=
  typeCheck AbstractVariableProcessingToken processingToken ;;
  if is_None processingToken
  then raise (TypeError "processingToken cannot be None")
  else
    cs <- gets (fun w => children (self w)) ;;
    if 0 <? List.length cs then isDefined_for cs
    else ret false.

(** ** Helpers inherited from the abstract node *)

Definition setChildren (cs : list (Child Store)) (a : Agg Store) : Agg Store :=
  {| children := cs; mutable := mutable a; currentValue := currentValue a;
     tokenChoppedIndexes := tokenChoppedIndexes a |}.
Definition setMutable (b : bool) (a : Agg Store) : Agg Store :=
  {| children := children a; mutable := b; currentValue := currentValue a;
     tokenChoppedIndexes := tokenChoppedIndexes a |}.
Definition setTokenChoppedIndexes (l : list nat) (a : Agg Store) : Agg Store :=
  {| children := children a; mutable := mutable a;
     currentValue := currentValue a; tokenChoppedIndexes := l |}.

(** Modelled from the spec: the delegation loop shared by [readChildren]
    and [writeChildren] of [AbstractVariableNode], not part of [Agg.py]:
    "children are read sequentially against the same token; each child
    [...] may set the success flag false.  The aggregate does not attempt
    the next child once the success flag has gone false"; the flag is
    looked at "after each delegated call"; and for write, "sequential
    delegation with the same stop-on-first-failure semantics as read". *)
Fixpoint delegate_for (call : Child Store -> M Store unit)
  (cs : list (Child Store)) : M Store unit :=
  match cs with
  | [] => ret tt
  | child :: rest =>
      call child ;;
      ok <- gets (fun w => Ok (token (env w))) ;;
      if ok then delegate_for call rest else ret tt
  end.

Definition readChildren : M Store unit :=
  cs <- gets (fun w => children (self w)) ;;
  delegate_for call_read cs.

Definition writeChildren : M Store unit :=
  cs <- gets (fun w => children (self w)) ;;
  delegate_for call_write cs.

(** Modelled from the spec: [resetTokenChoppedIndexes] of
    [AbstractVariableNode], not part of [Agg.py]: it drops the references
    the node keeps to its previously computed final value.  It is called
    on the node and is given no token. *)
Definition resetTokenChoppedIndexes : M Store unit :=
  emit ResetTokenChoppedIndexes ;;
  modify (fun w => withSelf (setTokenChoppedIndexes [] (self w)) w).

(** Modelled from the spec: [notifyBoundedVariables] of
    [AbstractVariable], not part of [Agg.py]: one broadcast to the
    listeners registered on the node, with the kind of access and, for a
    read, the value. *)
Definition notifyBoundedVariables (access : string) (value : option string)
  : M Store unit :=
  emit (Notify access value).

(** Modelled from the spec: the accessor [isMutable]. *)
Definition isMutable : M Store bool := gets (fun w => mutable (self w)).

(** Modelled from the spec: [shuffleChildren] of [AbstractVariableNode],
    not part of [Agg.py]: "children are processed in a randomly shuffled
    order".  The method is given nothing and returns nothing: it reorders
    [self.children] in place, from the shared random generator. *)
Definition shuffleChildren : M Store unit :=
  emit ShuffleChildren ;;
  modify (fun w =>
    let (cs, left) := shuffle (random (env w)) (children (self w)) in
    withRandom left (withSelf (setChildren cs (self w)) w)).

(** The spec leaves open the key of the read-specific ordering ("a sort
    key appropriate to parsing, such as ones more likely to match
    first"): any rank of a child, given the token and the state of the
    children. *)
Variable readRank : Env Store -> Child Store -> nat.

(** Modelled from the spec: [sortChildrenToRead] of
    [AbstractVariableNode], not part of [Agg.py]: "the engine first
    computes a read-specific ordering of children".  The method returns
    nothing: it reorders [self.children] in place. *)
Definition sortChildrenToRead : M Store unit :=
  emit SortChildrenToRead ;;
  modify (fun w =>
    withSelf (setChildren (sortByRank (readRank (env w))
                                      (children (self w))) (self w)) w).

(** ** [Agg.read] *)

Definition read (readingToken : PyArg) : M Store unit :=
  typeCheck VariableReadingToken readingToken ;;
  if is_None readingToken
  then raise (TypeError "readingToken cannot be None")
  else
    n <- gets (fun w => List.length (children (self w))) ;;
    (if 0 <? n then
       m <- gets (fun w => mutable (self w)) ;;
       if m then
         (* mutable. *)
         sortChildrenToRead ;;
         readChildren
       else
         (* not mutable. *)
         readChildren
     else
       (* no child. *)
       modify (fun w => withToken (setOk false (token (env w))) w)) ;;
    (* Variable notification *)
    ok <- gets (fun w => Ok (token (env w))) ;;
    if ok then
      v <- gets (fun w => currentValue (self w)) ;;
      notifyBoundedVariables "read" (Some v)
    else ret tt.

(** ** [Agg.write] *)

Definition write (writingToken : PyArg) : M Store unit :=
  typeCheck VariableWritingToken writingToken ;;
  if is_None writingToken
  then raise (TypeError "writingToken cannot be None")
  else
    resetTokenChoppedIndexes ;;
    n <- gets (fun w => List.length (children (self w))) ;;
    (if 0 <? n then
       m <- isMutable ;;
       if m then
         (* mutable. *)
         shuffleChildren ;;
         writeChildren
       else
         (* not mutable. *)
         writeChildren
     else
       (* no child. *)
       modify (fun w => withToken (setOk false (token (env w))) w)) ;;
    (* Variable notification *)
    ok <- gets (fun w => Ok (token (env w))) ;;
    if ok then notifyBoundedVariables "write" None
    else ret tt.

(** ** [Agg.buildRegex] *)

(** The list comprehension [[f(x) for x in l]]. *)
Fixpoint mapM {A B} (f : A -> M Store B) (l : list A) : M Store (list B) :=
  match l with
  | [] => ret []
  | x :: l' =>
      y <- f x ;;
      ys <- mapM f l' ;;
      ret (y :: ys)
  end.

Definition buildRegex : M Store NetzobRegex :=
  cs <- gets (fun w => children (self w)) ;;
  regexes <- mapM call_buildRegex cs ;;
  ret (buildRegexForAggregateRegexes regexes).

(** The aggregate once [resetTokenChoppedIndexes] has run. *)
Definition resetSelf (w : World Store) : Agg Store :=
  setTokenChoppedIndexes [] (self w).

(** ** Reading the record of calls *)

Definition readCalls (evs : list Event) : list nat :=
  flat_map (fun e => match e with CallRead c => [c] | _ => [] end) evs.
Definition writeCalls (evs : list Event) : list nat :=
  flat_map (fun e => match e with CallWrite c => [c] | _ => [] end) evs.
Definition notifications (evs : list Event) : list (string * option string) :=
  flat_map (fun e => match e with Notify a v => [(a, v)] | _ => [] end) evs.

(** What the given children leave, each applying [method] in turn to what
    the one before left. *)
Definition after (method : Child Store -> Env Store -> Env Store)
  (cs : list (Child Store)) (e : Env Store) : Env Store :=
  fold_left (fun e c => method c e) cs e.

(** The children a delegation loop reaches: every child up to and
    including the first that leaves the success flag false. *)
Fixpoint visited (method : Child Store -> Env Store -> Env Store)
  (cs : list (Child Store)) (e : Env Store) : list (Child Store) :=
  match cs with
  | [] => []
  | c :: rest =>
      c :: (if Ok (token (method c e))
            then visited method rest (method c e) else [])
  end.

(** Every one of the given children, applying [method] in turn, leaves the
    success flag true. *)
Fixpoint passes (method : Child Store -> Env Store -> Env Store)
  (cs : list (Child Store)) (e : Env Store) : bool :=
  match cs with
  | [] => true
  | c :: rest => Ok (token (method c e)) && passes method rest (method c e)
  end.

(** The children [isDefined] looks at: every child up to and including the
    first undefined one. *)
Fixpoint examined (cs : list (Child Store)) (t : Token) (s : Store)
  : list (Child Store) :=
  match cs with
  | [] => []
  | c :: rest => c :: (if child_isDefined c t s then examined rest t s else [])
  end.

(** The answer [isDefined] gives on a token: at least one child, and no
    child undefined. *)
Definition definedAnswer (w : World Store) : bool :=
  negb (match children (self w) with [] => true | _ => false end)
  && forallb (fun c => child_isDefined c (token (env w)) (store (env w)))
       (children (self w)).

(** The order in which a read (a write) goes through the children. *)
Definition readOrder (w : World Store) : list (Child Store) :=
  if mutable (self w)
  then sortByRank (readRank (env w)) (children (self w))
  else children (self w).

Definition writeOrder (w : World Store) : list (Child Store) :=
  if mutable (self w)
  then fst (shuffle (random (env w)) (children (self w)))
  else children (self w).

(** What the children of a write start from: the generator less the draws
    of the shuffle, when there was one. *)
Definition writeStart (w : World Store) : Env Store :=
  if mutable (self w)
  then setRandom (snd (shuffle (random (env w)) (children (self w)))) (env w)
  else env w.

(** A child whose [method] neither looks at the random generator nor draws
    from it. *)
Definition keepsRandom (method : Child Store -> Env Store -> Env Store)
  (c : Child Store) : Prop :=
  forall r e, method c (setRandom r e) = setRandom r (method c e).

End Model.

(** ** An aggregate as a child *)

(** An aggregate can sit among the children of another one (the doctest of
    the class does [domain.children.append(Agg([10, 20, 30]))]).  Seen from
    its parent, its state is its own attributes together with the state of
    its children. *)
Definition inner {Store} (e : Env (Agg Store * Store)) : World Store :=
  {| self := fst (store e);
     env := {| token := token e; random := random e;
               store := snd (store e) |} |}.

Definition outer {Store} (w : World Store) : Env (Agg Store * Store) :=
  {| token := token (env w); random := random (env w);
     store := (self w, store (env w)) |}.

Definition blankToken : Token :=
  {| tokenClass := AbstractVariableProcessingToken; Ok := true;
     position := 0; tokenValue := EmptyString; memory := [] |}.

(** The child that an aggregate is: its four methods are those of
    [Agg.py], run on the nested aggregate, and what they record stays with
    it.  (The parent has put the token through the same class test before
    it calls [read] or [write] on a child.) *)
Definition aggChild {Store} (id : nat)
  (readRank : Env Store -> Child Store -> nat) : Child (Agg Store * Store) :=
  {| cid := id;
     child_isDefined := fun t s =>
       match result (isDefined PyToken
                       (inner {| token := t; random := []; store := s |})) with
       | Return b => b
       | Raise _ => false
       end;
     child_read := fun e => outer (world (read readRank PyToken (inner e)));
     child_write := fun e => outer (world (write PyToken (inner e)));
     child_buildRegex := fun s =>
       match result (buildRegex
                       (inner {| token := blankToken; random := [];
                                 store := s |})) with
       | Return r => r
       | Raise _ => buildRegexForAggregateRegexes []
       end |}.

(** ** A worked aggregate *)

Module Sample.

Definition tok (cls : TokenClass) : Token :=
  {| tokenClass := cls; Ok := true; position := 0;
     tokenValue := "68656c6c6f0011223344"; memory := [] |}.

Definition advance (n : nat) (e : Env unit) : Env unit :=
  setToken {| tokenClass := tokenClass (token e); Ok := Ok (token e);
              position := position (token e) + n;
              tokenValue := tokenValue (token e);
              memory := memory (token e) |} e.

Definition fail (e : Env unit) : Env unit :=
  setToken (setOk false (token e)) e.

Definition say (text : string) (e : Env unit) : Env unit :=
  setToken {| tokenClass := tokenClass (token e); Ok := Ok (token e);
              position := position (token e);
              tokenValue := (tokenValue (token e) ++ text)%string;
              memory := memory (token e) |} e.

(** The two patterns of the doctest of [Agg.buildRegex]: the text
    [hello] in hexadecimal, and between 10 and 20 characters. *)
Definition helloRegex : NetzobRegex :=
  {| regexText := "(68656c6c6f)";
     regexMatches := fun s => String.eqb s "68656c6c6f" |}.
Definition sizedRegex : NetzobRegex :=
  {| regexText := "(.{10,20})";
     regexMatches := fun s =>
       (10 <=? String.length s) && (String.length s <=? 20) |}.

(** A child that always succeeds, one that always fails, one that writes
    a text. *)
Definition good (i : nat) (r : NetzobRegex) : Child unit :=
  {| cid := i; child_isDefined := fun _ _ => true;
     child_read := advance 10; child_write := advance 10;
     child_buildRegex := fun _ => r |}.
Definition bad (i : nat) (r : NetzobRegex) : Child unit :=
  {| cid := i; child_isDefined := fun _ _ => false;
     child_read := fail; child_write := fail;
     child_buildRegex := fun _ => r |}.
Definition writer (i : nat) (text : string) : Child unit :=
  {| cid := i; child_isDefined := fun _ _ => true;
     child_read := advance 1; child_write := say text;
     child_buildRegex := fun _ => sizedRegex |}.

Definition A := good 1 helloRegex.
Definition B := bad 2 sizedRegex.
Definition C := good 3 sizedRegex.

Definition agg {Store} (m : bool) (cs : list (Child Store)) : Agg Store :=
  {| children := cs; mutable := m; currentValue := "old";
     tokenChoppedIndexes := [4; 8] |}.

Definition start (cls : TokenClass) (m : bool) (cs : list (Child unit))
  : World unit :=
  {| self := agg m cs;
     env := {| token := tok cls; random := [2; 0; 1]; store := tt |} |}.

Definition byId {Store} (_ : Env Store) (c : Child Store) : nat := cid c.
Definition byIdDesc {Store} (_ : Env Store) (c : Child Store) : nat :=
  10 - cid c.

(** An aggregate that is not mutable and has one child: an aggregate,
    mutable or not, of two children that write [a] and [b]. *)
Definition nested (m : bool) (draws : list nat) : World (Agg unit * unit) :=
  {| self := agg false [aggChild 7 byId];
     env := {| token := tok VariableWritingToken; random := draws;
               store := (agg m [writer 1 "a"; writer 2 "b"], tt) |} |}.

End Sample.


(** * Properties *)

(** ** Running the monad *)

Lemma preceded_nil {Store A} (o : Result A * World Store * list Event) :
  preceded [] o = o.
Proof. destruct o as [[r w] e]; reflexivity. Qed.

Lemma bind_known {Store A B} (m : M Store A) (f : A -> M Store B) w a w1 e1 :
  m w = (Return a, w1, e1) -> bind m f w = preceded e1 (f a w1).
Proof. intro H. unfold bind, preceded. now rewrite H. Qed.

Lemma bind_raised {Store A B} (m : M Store A) (f : A -> M Store B) w x w1 e1 :
  m w = (Raise x, w1, e1) -> bind m f w = (Raise x, w1, e1).
Proof. intro H. unfold bind. now rewrite H. Qed.

Lemma bind_ret {Store A B} (a : A) (f : A -> M Store B) w :
  bind (ret a) f w = f a w.
Proof. rewrite (bind_known _ _ w a w []) by reflexivity. apply preceded_nil. Qed.

Lemma bind_gets {Store A B} (g : World Store -> A) (f : A -> M Store B) w :
  bind (gets g) f w = f (g w) w.
Proof. rewrite (bind_known _ _ w (g w) w []) by reflexivity. apply preceded_nil. Qed.

Lemma bind_modify {Store B} (g : World Store -> World Store)
  (f : unit -> M Store B) w :
  bind (modify g) f w = f tt (g w).
Proof. rewrite (bind_known _ _ w tt (g w) []) by reflexivity. apply preceded_nil. Qed.

Lemma bind_emit {Store B} (e : Event) (f : unit -> M Store B) w :
  bind (emit e) f w = preceded [e] (f tt w).
Proof. now rewrite (bind_known _ _ w tt w [e]). Qed.

Lemma bind_raise {Store A B} (x : Exn) (f : A -> M Store B) w :
  bind (raise x) f w = (Raise x, w, []).
Proof. now rewrite (bind_raised _ _ w x w []). Qed.

Lemma bind_assoc {Store A B C} (m : M Store A) (f : A -> M Store B)
  (g : B -> M Store C) w :
  bind (bind m f) g w = bind m (fun a => bind (f a) g) w.
Proof.
  unfold bind. destruct (m w) as [[[a|x] w1] e1]; [|reflexivity].
  destruct (f a w1) as [[[b|y] w2] e2]; [|reflexivity].
  destruct (g b w2) as [[r w3] e3]. now rewrite app_assoc.
Qed.

Ltac step :=
  repeat first
    [ rewrite bind_assoc | rewrite bind_ret | rewrite bind_gets
    | rewrite bind_modify | rewrite bind_emit | rewrite bind_raise ].

Ltac tidy :=
  cbn [self env token random store withEnv withSelf withToken withRandom
       setToken setRandom children mutable currentValue tokenChoppedIndexes
       setChildren setTokenChoppedIndexes setMutable resetSelf].

(** ** The two reorderings keep every child, once *)

Lemma insertAt_permutation {A} (n : nat) (x : A) (l : list A) :
  Permutation (x :: l) (insertAt n x l).
Proof.
  revert n; induction l as [|y l IH]; intros [|n]; simpl; try reflexivity.
  rewrite perm_swap. now constructor.
Qed.

Lemma shuffle_permutation {A} (draws : list nat) (l : list A) :
  Permutation l (fst (shuffle draws l)).
Proof.
  induction l as [|x l IH]; simpl.
  - constructor.
  - destruct (shuffle draws l) as [placed left]. simpl in IH.
    destruct left as [|r left']; simpl.
    + now constructor.
    + rewrite <- insertAt_permutation. now constructor.
Qed.

Lemma insertByRank_permutation {A} (rank : A -> nat) (x : A) (l : list A) :
  Permutation (x :: l) (insertByRank rank x l).
Proof.
  induction l as [|y l IH]; simpl.
  - reflexivity.
  - destruct (rank x <=? rank y); [reflexivity|].
    rewrite perm_swap. now constructor.
Qed.

Lemma sortByRank_permutation {A} (rank : A -> nat) (l : list A) :
  Permutation l (sortByRank rank l).
Proof.
  induction l as [|x l IH]; simpl.
  - constructor.
  - rewrite <- insertByRank_permutation. now constructor.
Qed.

(** The shuffle is a shuffle: every order of the elements is reached, for
    some draws, and then exactly as many draws are used as there are
    elements. *)
Lemma insertAt_middle {A} (x : A) (p1 p2 : list A) :
  insertAt (List.length p1) x (p1 ++ p2) = p1 ++ x :: p2.
Proof. induction p1 as [|y p1 IH]; simpl; [now destruct p2 | now rewrite IH]. Qed.

Lemma shuffle_reaches_every_order {A} (l p : list A) :
  Permutation l p ->
  exists draws,
    List.length draws = List.length l /\
    forall rest, shuffle (draws ++ rest) l = (p, rest).
Proof.
  revert p; induction l as [|x l IH]; intros p P.
  - apply Permutation_nil in P. subst. exists []. now split.
  - assert (Hin : In x p) by (apply (Permutation_in x P); now left).
    destruct (in_split x p Hin) as (p1 & p2 & ->).
    apply Permutation_cons_app_inv in P.
    destruct (IH _ P) as (draws & Hlen & Hrun).
    exists (draws ++ [List.length p1]). split.
    + rewrite length_app. simpl. lia.
    + intro rest. cbn [shuffle]. rewrite <- app_assoc, Hrun.
      cbn -[Nat.modulo insertAt].
      rewrite Nat.mod_small by (rewrite length_app; lia).
      now rewrite insertAt_middle.
Qed.

(** The sort is a sort: the ranks come out in non-decreasing order. *)
Lemma insertByRank_sorted {A} (rank : A -> nat) (x : A) (l : list A) :
  StronglySorted (fun a b => rank a <= rank b) l ->
  StronglySorted (fun a b => rank a <= rank b) (insertByRank rank x l).
Proof.
  induction l as [|y l IH]; simpl; intro H.
  - repeat constructor.
  - inversion H as [|? ? Hl Hy]; subst.
    destruct (rank x <=? rank y) eqn:E.
    + apply Nat.leb_le in E. constructor; [exact H|].
      constructor; [exact E|].
      eapply Forall_impl; [|exact Hy]. intros a Ha. simpl in Ha. lia.
    + apply Nat.leb_gt in E. constructor; [now apply IH|].
      apply (Permutation_Forall (insertByRank_permutation rank x l)).
      constructor; [lia | exact Hy].
Qed.

Lemma sortByRank_sorted {A} (rank : A -> nat) (l : list A) :
  StronglySorted (fun a b => rank a <= rank b) (sortByRank rank l).
Proof.
  induction l as [|x l IH]; simpl; [constructor|].
  now apply insertByRank_sorted.
Qed.

(** ** Sifting the record of calls *)

Lemma readCalls_app (e1 e2 : list Event) :
  readCalls (e1 ++ e2) = readCalls e1 ++ readCalls e2.
Proof. apply flat_map_app. Qed.

Lemma writeCalls_app (e1 e2 : list Event) :
  writeCalls (e1 ++ e2) = writeCalls e1 ++ writeCalls e2.
Proof. apply flat_map_app. Qed.

Lemma notifications_app (e1 e2 : list Event) :
  notifications (e1 ++ e2) = notifications e1 ++ notifications e2.
Proof. apply flat_map_app. Qed.

(** ** Matching a concatenation *)

Lemma splits_spec (s a b : string) :
  In (a, b) (splits s) <-> (a ++ b)%string = s.
Proof.
  revert a b; induction s as [|c s IH]; intros a b; simpl.
  - split.
    + intros [H|[]]. now inversion H.
    + destruct a; simpl; [|discriminate]. intros ->. now left.
  - split.
    + intros [H|H].
      * now inversion H.
      * apply in_map_iff in H. destruct H as [[a' b'] [H1 H2]].
        inversion H1; subst. simpl. f_equal. now apply IH.
    + destruct a as [|c' a']; simpl.
      * intros ->. now left.
      * intros H. inversion H; subst. right.
        apply in_map_iff. exists (a', b). split; [reflexivity|].
        now apply IH.
Qed.

(** The decision function says what the words say: the string is the
    concatenation of pieces matched one each, in order. *)
Lemma matchesInOrder_spec (ms : list (string -> bool)) (s : string) :
  matchesInOrder ms s = true <->
  exists pieces, join pieces = s /\ Forall2 (fun m p => m p = true) ms pieces.
Proof.
  revert s; induction ms as [|m ms IH]; intro s; simpl.
  - split.
    + destruct s; [|discriminate]. intros _. exists []. split; constructor.
    + intros [pieces [Hj HF]]. inversion HF; subst. reflexivity.
  - rewrite existsb_exists. split.
    + intros [[a b] [Hin Hm]]. apply andb_true_iff in Hm. destruct Hm as [Ha Hb].
      apply splits_spec in Hin. apply IH in Hb. destruct Hb as [pieces [Hj HF]].
      exists (a :: pieces). split.
      * simpl. now rewrite Hj.
      * now constructor.
    + intros [pieces [Hj HF]]. inversion HF as [|m' p ms' rest Hp Hrest]; subst.
      exists (p, join rest). split.
      * now apply splits_spec.
      * simpl. rewrite Hp. simpl. apply IH. now exists rest.
Qed.

Lemma empty_pattern_matches (s : string) :
  regexMatches (buildRegexForAggregateRegexes []) s = true <-> s = EmptyString.
Proof.
  simpl. destruct s; split; intro H; try reflexivity; discriminate.
Qed.

Lemma empty_pattern_neutral (p : NetzobRegex) (s : string) :
  regexMatches
    (buildRegexForAggregateRegexes [buildRegexForAggregateRegexes []; p]) s
  = regexMatches (buildRegexForAggregateRegexes [p]) s /\
  regexMatches
    (buildRegexForAggregateRegexes [p; buildRegexForAggregateRegexes []]) s
  = regexMatches (buildRegexForAggregateRegexes [p]) s.
Proof.
  split; apply eq_true_iff_eq; cbn [buildRegexForAggregateRegexes regexMatches map];
    rewrite !matchesInOrder_spec; split.
  - intros [pieces [Hj HF]].
    inversion HF as [|m0 p0 ms0 rest0 H0 HF0]; subst.
    inversion HF0 as [|m1 p1 ms1 rest1 H1 HF1]; subst.
    inversion HF1; subst.
    change (matchesInOrder [] p0 = true) in H0.
    destruct p0; [|discriminate].
    exists [p1]. split; [reflexivity | now repeat constructor].
  - intros [pieces [Hj HF]].
    inversion HF as [|m0 p0 ms0 rest0 H0 HF0]; subst.
    inversion HF0; subst.
    exists [EmptyString; p0]. split; [reflexivity | now repeat constructor].
  - intros [pieces [Hj HF]].
    inversion HF as [|m0 p0 ms0 rest0 H0 HF0]; subst.
    inversion HF0 as [|m1 p1 ms1 rest1 H1 HF1]; subst.
    inversion HF1; subst.
    change (matchesInOrder [] p1 = true) in H1.
    destruct p1; [|discriminate].
    exists [p0]. split; [reflexivity | now repeat constructor].
  - intros [pieces [Hj HF]].
    inversion HF as [|m0 p0 ms0 rest0 H0 HF0]; subst.
    inversion HF0; subst.
    exists [p0; EmptyString]. split; [reflexivity | now repeat constructor].
Qed.

Lemma forallb_permutation {A} (f : A -> bool) (l l' : list A) :
  Permutation l l' -> forallb f l = forallb f l'.
Proof.
  intro P. apply eq_true_iff_eq. rewrite !forallb_forall.
  split; intros H x Hx; apply H.
  - now apply (Permutation_in x (Permutation_sym P)).
  - now apply (Permutation_in x P).
Qed.

Lemma no_children_permutation {A} (l l' : list A) :
  Permutation l l' ->
  match l with [] => true | _ => false end =
  match l' with [] => true | _ => false end.
Proof.
  intro P. destruct l as [|x l].
  - apply Permutation_nil in P. now subst.
  - destruct l' as [|y l']; [|reflexivity].
    apply Permutation_sym, Permutation_nil in P. discriminate.
Qed.

Lemma forallb_culprit {A} (f : A -> bool) (l : list A) :
  forallb f l = false ->
  exists pre c post,
    l = pre ++ c :: post /\ forallb f pre = true /\ f c = false.
Proof.
  induction l as [|x l IH]; simpl; intro H; [discriminate|].
  destruct (f x) eqn:E.
  - destruct (IH H) as (pre & c & post & Hl & Hpre & Hc).
    exists (x :: pre), c, post. simpl. rewrite E, Hl. now repeat split.
  - exists [], x, l. now repeat split.
Qed.

Section Properties.

Context {Store : Type}.

(** ** Records and lists *)

Lemma withEnv_same (w : World Store) : withEnv (env w) w = w.
Proof. destruct w; reflexivity. Qed.

Lemma setChildren_same (a : Agg Store) : setChildren (children a) a = a.
Proof. destruct a; reflexivity. Qed.

Lemma after_app method (l1 l2 : list (Child Store)) (e : Env Store) :
  after method (l1 ++ l2) e = after method l2 (after method l1 e).
Proof. apply fold_left_app. Qed.

Lemma children_cases (w : World Store) :
  children (self w) = [] \/ children (self w) <> [].
Proof. destruct (children (self w)); [left; reflexivity | right; discriminate]. Qed.

Lemma readCalls_reads (cs : list (Child Store)) :
  readCalls (map (fun c => CallRead (cid c)) cs) = map cid cs.
Proof. induction cs; simpl; congruence. Qed.

Lemma writeCalls_writes (cs : list (Child Store)) :
  writeCalls (map (fun c => CallWrite (cid c)) cs) = map cid cs.
Proof. induction cs; simpl; congruence. Qed.

Lemma notifications_reads (cs : list (Child Store)) :
  notifications (map (fun c => CallRead (cid c)) cs) = [].
Proof. induction cs; simpl; congruence. Qed.

Lemma notifications_writes (cs : list (Child Store)) :
  notifications (map (fun c => CallWrite (cid c)) cs) = [].
Proof. induction cs; simpl; congruence. Qed.

Lemma readOrder_permutation readRank (w : World Store) :
  Permutation (children (self w)) (readOrder readRank w).
Proof.
  unfold readOrder. destruct (mutable (self w)); [|reflexivity].
  apply sortByRank_permutation.
Qed.

Lemma writeOrder_permutation (w : World Store) :
  Permutation (children (self w)) (writeOrder w).
Proof.
  unfold writeOrder. destruct (mutable (self w)); [|reflexivity].
  apply shuffle_permutation.
Qed.

Lemma permutation_not_empty {A} (l l' : list A) :
  Permutation l l' -> l <> [] -> l' <> [].
Proof.
  intros P Hne H. subst. apply Permutation_sym, Permutation_nil in P.
  contradiction.
Qed.

(** ** The delegation loop *)

Section Delegation.

Variable ev : nat -> Event.
Variable method : Child Store -> Env Store -> Env Store.

Lemma delegate_for_run (cs : list (Child Store)) (w : World Store) :
  delegate_for (call_method ev method) cs w =
  (Return tt,
   withEnv (after method (visited method cs (env w)) (env w)) w,
   map (fun c => ev (cid c)) (visited method cs (env w))).
Proof.
  revert w; induction cs as [|c rest IH]; intro w.
  - simpl. unfold ret. now rewrite withEnv_same.
  - cbn [delegate_for visited]. unfold call_method at 1. step.
    cbn [env withEnv].
    destruct (Ok (token (method c (env w)))) eqn:E.
    + rewrite IH. cbn [env withEnv self preceded app]. reflexivity.
    + step. reflexivity.
Qed.

(** The loop reaches a prefix of the children. *)
Lemma visited_prefix (cs : list (Child Store)) (e : Env Store) :
  exists k, visited method cs e = firstn k cs.
Proof.
  revert e; induction cs as [|c rest IH]; intro e.
  - exists 0. reflexivity.
  - simpl. destruct (Ok (token (method c e))).
    + destruct (IH (method c e)) as [k Hk]. exists (S k). simpl. now rewrite Hk.
    + exists 1. reflexivity.
Qed.

(** It always reaches the first child. *)
Lemma visited_not_empty (cs : list (Child Store)) (e : Env Store) :
  cs <> [] -> visited method cs e <> [].
Proof. destruct cs; [contradiction | discriminate]. Qed.

(** It ends at the first child that leaves the flag false. *)
Lemma visited_stops (pre post : list (Child Store)) (b : Child Store)
  (e : Env Store) :
  passes method pre e = true ->
  Ok (token (method b (after method pre e))) = false ->
  visited method (pre ++ b :: post) e = pre ++ [b].
Proof.
  revert e; induction pre as [|a pre IH]; intros e Hpre Hb.
  - simpl in *. now rewrite Hb.
  - simpl in *. apply andb_true_iff in Hpre. destruct Hpre as [Ha Hpre].
    rewrite Ha. f_equal. now apply IH.
Qed.

(** With the flag still true at the end, every child was reached. *)
Lemma visited_all (cs : list (Child Store)) (e : Env Store) :
  cs <> [] ->
  Ok (token (after method (visited method cs e) e)) = true ->
  visited method cs e = cs.
Proof.
  revert e; induction cs as [|c rest IH]; intros e Hne Hok.
  - contradiction.
  - simpl in *. destruct (Ok (token (method c e))) eqn:E.
    + f_equal. destruct rest as [|d rest']; [reflexivity|].
      apply IH; [discriminate | exact Hok].
    + simpl in Hok. congruence.
Qed.

(** The flag at the end says whether every child passed. *)
Lemma passes_visited (cs : list (Child Store)) (e : Env Store) :
  cs <> [] ->
  Ok (token (after method (visited method cs e) e)) = passes method cs e.
Proof.
  revert e; induction cs as [|c rest IH]; intros e Hne; [contradiction|].
  cbn [visited passes]. destruct (Ok (token (method c e))) eqn:E; cbn [andb].
  - destruct rest as [|d rest'].
    + simpl. exact E.
    + change (after method (c :: visited method (d :: rest') (method c e)) e)
        with (after method (visited method (d :: rest') (method c e))
                (method c e)).
      apply IH. discriminate.
  - simpl. exact E.
Qed.

(** When every child passes, every child is reached. *)
Lemma visited_passes (cs : list (Child Store)) (e : Env Store) :
  passes method cs e = true -> visited method cs e = cs.
Proof.
  revert e; induction cs as [|c rest IH]; intros e H; [reflexivity|].
  simpl in *. apply andb_true_iff in H. destruct H as [Hc H].
  rewrite Hc. f_equal. now apply IH.
Qed.

(** Children that keep off the random generator: the loop does the same
    whatever the generator holds, and leaves it as it was. *)
Lemma after_keepsRandom (cs : list (Child Store)) (r : list nat) (e : Env Store) :
  (forall c, In c cs -> keepsRandom method c) ->
  after method cs (setRandom r e) = setRandom r (after method cs e).
Proof.
  revert e; induction cs as [|c rest IH]; intros e H; [reflexivity|].
  change (after method rest (method c (setRandom r e))
          = setRandom r (after method rest (method c e))).
  rewrite (H c (or_introl eq_refl)). apply IH.
  intros d Hd. apply H. now right.
Qed.

Lemma visited_keepsRandom (cs : list (Child Store)) (r : list nat) (e : Env Store) :
  (forall c, In c cs -> keepsRandom method c) ->
  visited method cs (setRandom r e) = visited method cs e.
Proof.
  revert e; induction cs as [|c rest IH]; intros e H; [reflexivity|].
  pose proof (H c (or_introl eq_refl) r e) as Hc.
  cbn [visited]. rewrite !Hc. cbn [setRandom token].
  destruct (Ok (token (method c e))); [|reflexivity].
  f_equal. apply IH. intros d Hd. apply H. now right.
Qed.

Lemma visited_incl (cs : list (Child Store)) (e : Env Store) :
  incl (visited method cs e) cs.
Proof.
  destruct (visited_prefix cs e) as [k ->]. intros x Hx.
  rewrite <- (firstn_skipn k cs). apply in_or_app. now left.
Qed.

End Delegation.

(** ** What a read and a write come to *)

Lemma read_no_child readRank (w : World Store) :
  tokenClass (token (env w)) = VariableReadingToken ->
  children (self w) = [] ->
  read readRank PyToken w =
  (Return tt, withToken (setOk false (token (env w))) w, []).
Proof.
  intros Hcls Hcs. unfold read, typeCheck. step.
  rewrite Hcls. cbn [isinstance TokenClass_eqb is_None]. step.
  rewrite Hcs. cbn [List.length Nat.ltb Nat.leb]. step.
  reflexivity.
Qed.

Lemma read_children readRank (w : World Store) :
  tokenClass (token (env w)) = VariableReadingToken ->
  children (self w) <> [] ->
  read readRank PyToken w =
  let order := readOrder readRank w in
  let seen := visited child_read order (env w) in
  let e' := after child_read seen (env w) in
  (Return tt,
   {| self := setChildren order (self w); env := e' |},
   (if mutable (self w) then [SortChildrenToRead] else [])
   ++ map (fun c => CallRead (cid c)) seen
   ++ (if Ok (token e')
       then [Notify "read" (Some (currentValue (self w)))] else [])).
Proof.
  intros Hcls Hcs. unfold read, typeCheck, readOrder. step.
  rewrite Hcls. cbn [isinstance TokenClass_eqb is_None]. step.
  destruct (children (self w)) as [|c cs] eqn:E; [contradiction|].
  cbn [List.length Nat.ltb Nat.leb]. step.
  destruct (mutable (self w)) eqn:Em.
  - unfold sortChildrenToRead, readChildren. step.
    unfold call_read.
    rewrite (bind_known _ _ _ _ _ _ (delegate_for_run _ _ _ _)). step.
    tidy. rewrite E.
    destruct (Ok (token (after child_read _ _))); unfold notifyBoundedVariables;
      step; reflexivity.
  - unfold readChildren. step.
    unfold call_read.
    rewrite (bind_known _ _ _ _ _ _ (delegate_for_run _ _ _ _)). step.
    tidy. rewrite E, <- E, setChildren_same.
    destruct (Ok (token (after child_read _ _))) eqn:Eo;
      unfold notifyBoundedVariables; step; destruct w; reflexivity.
Qed.

Lemma write_no_child (w : World Store) :
  tokenClass (token (env w)) = VariableWritingToken ->
  children (self w) = [] ->
  write PyToken w =
  (Return tt,
   {| self := resetSelf w; env := setToken (setOk false (token (env w))) (env w) |},
   [ResetTokenChoppedIndexes]).
Proof.
  intros Hcls Hcs. unfold write, typeCheck, resetTokenChoppedIndexes. step.
  rewrite Hcls. cbn [isinstance TokenClass_eqb is_None]. step.
  tidy. rewrite Hcs. cbn [List.length Nat.ltb Nat.leb]. step.
  reflexivity.
Qed.

Lemma write_children (w : World Store) :
  tokenClass (token (env w)) = VariableWritingToken ->
  children (self w) <> [] ->
  write PyToken w =
  let order := writeOrder w in
  let seen := visited child_write order (writeStart w) in
  let e' := after child_write seen (writeStart w) in
  (Return tt,
   {| self := setChildren order (resetSelf w); env := e' |},
   ResetTokenChoppedIndexes
   :: (if mutable (self w) then [ShuffleChildren] else [])
   ++ map (fun c => CallWrite (cid c)) seen
   ++ (if Ok (token e') then [Notify "write" None] else [])).
Proof.
  intros Hcls Hcs.
  unfold write, typeCheck, writeOrder, writeStart, resetTokenChoppedIndexes,
    isMutable.
  step. rewrite Hcls. cbn [isinstance TokenClass_eqb is_None]. step.
  tidy.
  destruct (children (self w)) as [|c cs] eqn:E; [contradiction|].
  cbn [List.length Nat.ltb Nat.leb]. step. tidy.
  destruct (mutable (self w)) eqn:Em.
  - unfold shuffleChildren, writeChildren. step. tidy.
    rewrite E. destruct (shuffle (random (env w)) (c :: cs)) as [order left] eqn:Es.
    tidy. cbn [fst snd]. unfold call_write.
    rewrite (bind_known _ _ _ _ _ _ (delegate_for_run _ _ _ _)). step.
    tidy.
    destruct (Ok (token (after child_write _ _))); unfold notifyBoundedVariables;
      step; reflexivity.
  - unfold writeChildren. step. tidy.
    rewrite E. unfold call_write.
    rewrite (bind_known _ _ _ _ _ _ (delegate_for_run _ _ _ _)). step.
    tidy. unfold resetSelf, setTokenChoppedIndexes, setChildren.
    cbn [children mutable currentValue tokenChoppedIndexes].
    rewrite E, Em.
    destruct (Ok (token (after child_write _ _))) eqn:Eo;
      unfold notifyBoundedVariables; step; reflexivity.
Qed.

(** ** What [isDefined] and [buildRegex] come to *)

Lemma isDefined_for_run (cs : list (Child Store)) (w : World Store) :
  isDefined_for cs w =
  (Return (forallb (fun c => child_isDefined c (token (env w)) (store (env w))) cs),
   w,
   map (fun c => CallIsDefined (cid c))
     (examined cs (token (env w)) (store (env w)))).
Proof.
  induction cs as [|c rest IH].
  - reflexivity.
  - cbn [isDefined_for examined forallb]. unfold call_isDefined. step.
    destruct (child_isDefined c (token (env w)) (store (env w)));
      cbn [negb andb].
    + rewrite IH. reflexivity.
    + step. reflexivity.
Qed.

Lemma isDefined_run (w : World Store) :
  isDefined PyToken w =
  (Return (definedAnswer w), w,
   map (fun c => CallIsDefined (cid c))
     (examined (children (self w)) (token (env w)) (store (env w)))).
Proof.
  unfold isDefined, typeCheck, definedAnswer. step.
  cbn [isinstance is_None]. step.
  destruct (children (self w)) as [|c cs] eqn:E.
  - reflexivity.
  - cbn [List.length Nat.ltb Nat.leb negb andb]. apply isDefined_for_run.
Qed.

Lemma mapM_call_buildRegex (cs : list (Child Store)) (w : World Store) :
  mapM call_buildRegex cs w =
  (Return (map (fun c => child_buildRegex c (store (env w))) cs), w,
   map (fun c => CallBuildRegex (cid c)) cs).
Proof.
  induction cs as [|c rest IH].
  - reflexivity.
  - cbn [mapM]. unfold call_buildRegex at 1. step.
    rewrite (bind_known _ _ _ _ _ _ IH). unfold ret. cbn [preceded].
    now rewrite app_nil_r.
Qed.

Lemma buildRegex_run (w : World Store) :
  buildRegex w =
  (Return (buildRegexForAggregateRegexes
             (map (fun c => child_buildRegex c (store (env w)))
                (children (self w)))),
   w,
   map (fun c => CallBuildRegex (cid c)) (children (self w))).
Proof.
  unfold buildRegex. step.
  rewrite (bind_known _ _ _ _ _ _ (mapM_call_buildRegex _ _)).
  unfold ret. cbn [preceded]. now rewrite app_nil_r.
Qed.

(** ** Defined-ness *)

Lemma examined_stops (pre post : list (Child Store)) (c : Child Store)
  (t : Token) (s : Store) :
  forallb (fun d => child_isDefined d t s) pre = true ->
  child_isDefined c t s = false ->
  examined (pre ++ c :: post) t s = pre ++ [c].
Proof.
  induction pre as [|a pre IH]; simpl; intros Hpre Hc.
  - now rewrite Hc.
  - apply andb_true_iff in Hpre. destruct Hpre as [Ha Hpre].
    rewrite Ha. f_equal. now apply IH.
Qed.

Lemma examined_all (cs : list (Child Store)) (t : Token) (s : Store) :
  forallb (fun c => child_isDefined c t s) cs = true -> examined cs t s = cs.
Proof.
  induction cs as [|c cs IH]; simpl; intro H; [reflexivity|].
  apply andb_true_iff in H. destruct H as [Hc H].
  rewrite Hc. f_equal. now apply IH.
Qed.

(** ** The order of a traversal *)

Lemma read_order readRank (w : World Store) :
  tokenClass (token (env w)) = VariableReadingToken ->
  let o := read readRank PyToken w in
  children (self (world o)) = readOrder readRank w /\
  readCalls (events o) =
    map cid (visited child_read (readOrder readRank w) (env w)) /\
  (children (self w) <> [] ->
   env (world o) =
   after child_read (visited child_read (readOrder readRank w) (env w)) (env w)) /\
  (children (self w) = [] -> Ok (token (env (world o))) = false).
Proof.
  intro Hcls. cbv zeta. destruct (children_cases w) as [E|Hne].
  - rewrite (read_no_child readRank w Hcls E).
    unfold readOrder. rewrite E.
    cbn [result world events fst snd]. tidy. rewrite E.
    destruct (mutable (self w)); repeat split; try contradiction; reflexivity.
  - rewrite (read_children readRank w Hcls Hne). cbv zeta.
    cbn [result world events fst snd]. tidy.
    split; [reflexivity|]. split; [|split; [reflexivity | contradiction]].
    rewrite !readCalls_app, readCalls_reads.
    destruct (mutable (self w));
      destruct (Ok (token (after child_read _ _))); cbn; now rewrite app_nil_r.
Qed.

Lemma write_order (w : World Store) :
  tokenClass (token (env w)) = VariableWritingToken ->
  let o := write PyToken w in
  children (self (world o)) = writeOrder w /\
  writeCalls (events o) =
    map cid (visited child_write (writeOrder w) (writeStart w)) /\
  (children (self w) <> [] ->
   env (world o) =
   after child_write (visited child_write (writeOrder w) (writeStart w))
     (writeStart w)) /\
  (children (self w) = [] -> Ok (token (env (world o))) = false).
Proof.
  intro Hcls. cbv zeta. destruct (children_cases w) as [E|Hne].
  - rewrite (write_no_child w Hcls E).
    unfold writeOrder, writeStart, resetSelf. rewrite E.
    cbn [result world events fst snd shuffle]. tidy. rewrite E.
    destruct (mutable (self w)); repeat split; try contradiction; reflexivity.
  - rewrite (write_children w Hcls Hne). cbv zeta.
    cbn [result world events fst snd]. tidy.
    split; [reflexivity|]. split; [|split; [reflexivity | contradiction]].
    change (ResetTokenChoppedIndexes :: ?l)
      with ([ResetTokenChoppedIndexes] ++ l).
    rewrite !writeCalls_app, writeCalls_writes.
    destruct (mutable (self w));
      destruct (Ok (token (after child_write _ _))); cbn; now rewrite app_nil_r.
Qed.

Lemma read_keepsRandom readRank (w : World Store) (r : list nat) :
  tokenClass (token (env w)) = VariableReadingToken ->
  mutable (self w) = false ->
  (forall c, In c (children (self w)) -> keepsRandom child_read c) ->
  read readRank PyToken (withRandom r w) =
  (result (read readRank PyToken w),
   withRandom r (world (read readRank PyToken w)),
   events (read readRank PyToken w)).
Proof.
  intros Hcls Hm Hk. destruct (children_cases w) as [E|Hne].
  - rewrite (read_no_child readRank w Hcls E).
    rewrite (read_no_child readRank (withRandom r w) Hcls E). reflexivity.
  - rewrite (read_children readRank w Hcls Hne).
    rewrite (read_children readRank (withRandom r w) Hcls Hne).
    unfold readOrder. cbv zeta. tidy. rewrite Hm.
    change {| token := token (env w); random := r; store := store (env w) |}
      with (setRandom r (env w)).
    rewrite (visited_keepsRandom _ _ _ _ Hk).
    rewrite after_keepsRandom.
    + cbn [result world events fst snd]. tidy. reflexivity.
    + intros c Hc. apply Hk. now apply (visited_incl _ _ _ c Hc).
Qed.

Lemma write_keepsRandom (w : World Store) (r : list nat) :
  tokenClass (token (env w)) = VariableWritingToken ->
  mutable (self w) = false ->
  (forall c, In c (children (self w)) -> keepsRandom child_write c) ->
  write PyToken (withRandom r w) =
  (result (write PyToken w),
   withRandom r (world (write PyToken w)),
   events (write PyToken w)).
Proof.
  intros Hcls Hm Hk. destruct (children_cases w) as [E|Hne].
  - rewrite (write_no_child w Hcls E).
    rewrite (write_no_child (withRandom r w) Hcls E). reflexivity.
  - rewrite (write_children w Hcls Hne).
    rewrite (write_children (withRandom r w) Hcls Hne).
    unfold writeOrder, writeStart. cbv zeta. tidy. rewrite Hm.
    change {| token := token (env w); random := r; store := store (env w) |}
      with (setRandom r (env w)).
    rewrite (visited_keepsRandom _ _ _ _ Hk).
    rewrite after_keepsRandom.
    + cbn [result world events fst snd]. tidy. reflexivity.
    + intros c Hc. apply Hk. now apply (visited_incl _ _ _ c Hc).
Qed.

(** * The aggregate against its specification *)

(** C1.  Reading delegates to the children one after the other, all on the
    same token, and stops at the first child that leaves the success flag
    false.  Let the read go through the children in the order
    [pre ++ b :: post] (the order of [self.children], after
    [sortChildrenToRead] when the aggregate is mutable), let every child of
    [pre] leave the flag true and let [b] leave it false.  Then the read
    returns, the children called are those of [pre] and then [b] and no
    other -- none of [post] is called --, the token (and all the children
    can reach) is as [b] left it after the children of [pre] worked on it
    in turn, its flag is false, and no notification is sent. *)
Theorem read_stops_at_first_failure
  (readRank : Env Store -> Child Store -> nat) (w : World Store)
  (pre post : list (Child Store)) (b : Child Store) :
  tokenClass (token (env w)) = VariableReadingToken ->
  readOrder readRank w = pre ++ b :: post ->
  passes child_read pre (env w) = true ->
  Ok (token (child_read b (after child_read pre (env w)))) = false ->
  let o := read readRank PyToken w in
  result o = Return tt /\
  events o =
    (if mutable (self w) then [SortChildrenToRead] else [])
    ++ map (fun c => CallRead (cid c)) (pre ++ [b]) /\
  readCalls (events o) = map cid pre ++ [cid b] /\
  env (world o) = child_read b (after child_read pre (env w)) /\
  Ok (token (env (world o))) = false /\
  notifications (events o) = [].
Proof.
  intros Hcls Horder Hpre Hb. cbv zeta.
  assert (Hne : children (self w) <> []).
  { intro H. pose proof (readOrder_permutation readRank w) as P.
    rewrite H, Horder in P. apply Permutation_nil in P.
    now destruct pre. }
  pose proof (read_children readRank w Hcls Hne) as Ho. cbv zeta in Ho.
  rewrite Horder, (visited_stops _ _ _ _ _ Hpre Hb) in Ho.
  rewrite after_app in Ho. cbn [after fold_left] in Ho.
  fold (after child_read pre (env w)) in Ho.
  rewrite Hb, app_nil_r in Ho. rewrite Ho.
  cbn [result world events fst snd env].
  repeat split; try assumption.
  - rewrite readCalls_app, readCalls_reads, map_app.
    now destruct (mutable (self w)).
  - rewrite notifications_app, notifications_reads.
    now destruct (mutable (self w)).
Qed.

(** C2.  On an aggregate without children, whatever its mutable flag, a
    read with a reading token and a write with a writing token return at
    once with the success flag of the token set to false; no child is
    called and no notification is sent (the write has reset the chopped
    indexes of the node, the read has changed nothing else). *)
Theorem no_child_fails
  (readRank : Env Store -> Child Store -> nat) (w : World Store) :
  children (self w) = [] ->
  (tokenClass (token (env w)) = VariableReadingToken ->
   let o := read readRank PyToken w in
   result o = Return tt /\
   world o = withToken (setOk false (token (env w))) w /\
   Ok (token (env (world o))) = false /\
   events o = []) /\
  (tokenClass (token (env w)) = VariableWritingToken ->
   let o := write PyToken w in
   result o = Return tt /\
   world o = {| self := resetSelf w;
                env := setToken (setOk false (token (env w))) (env w) |} /\
   Ok (token (env (world o))) = false /\
   events o = [ResetTokenChoppedIndexes]).
Proof.
  intro Hcs. split; intros Hcls o; subst o.
  - rewrite (read_no_child readRank w Hcls Hcs). repeat split.
  - rewrite (write_no_child w Hcls Hcs). repeat split.
Qed.

(** C3.  Given a processing token of any class, [isDefined] returns, and
    returns true exactly when the aggregate has at least one child and
    every child says it is defined under that token.  It changes neither
    the aggregate nor the token; it asks the children in order and, when a
    child is undefined after defined ones, stops there with the answer
    false, the later children not being asked.  The answer is the same for
    any other order of the same children. *)
Theorem isDefined_all_children (w : World Store) :
  let o := isDefined PyToken w in
  let defined :=
    fun c => child_isDefined c (token (env w)) (store (env w)) = true in
  (exists answer, result o = Return answer /\
     (answer = true <->
      children (self w) <> [] /\ Forall defined (children (self w)))) /\
  world o = w /\
  (forall pre c post,
     children (self w) = pre ++ c :: post ->
     Forall defined pre ->
     child_isDefined c (token (env w)) (store (env w)) = false ->
     result o = Return false /\
     events o = map (fun d => CallIsDefined (cid d)) (pre ++ [c])) /\
  (forall w',
     token (env w') = token (env w) ->
     store (env w') = store (env w) ->
     Permutation (children (self w)) (children (self w')) ->
     result (isDefined PyToken w') = result o).
Proof.
  cbv zeta. rewrite (isDefined_run w). cbn [result world events fst snd].
  split; [|split; [reflexivity|split]].
  - exists (definedAnswer w). split; [reflexivity|].
    unfold definedAnswer. rewrite andb_true_iff, negb_true_iff, forallb_forall,
      Forall_forall.
    destruct (children (self w)); split; intros [H1 H2]; split;
      try easy; congruence.
  - intros pre c post Hcs Hpre Hc. unfold definedAnswer. rewrite Hcs. split.
    + rewrite forallb_app. cbn [forallb].
      rewrite Hc, andb_false_r, andb_false_r. reflexivity.
    + rewrite examined_stops; [reflexivity| |exact Hc].
      apply forallb_forall. now apply Forall_forall.
  - intros w' Htok Hst P. rewrite (isDefined_run w'). cbn [result fst].
    unfold definedAnswer.
    rewrite Htok, Hst, (forallb_permutation _ _ _ P),
      (no_children_permutation _ _ P). reflexivity.
Qed.

(** C4.  A read with a reading token sends exactly one notification, of
    kind "read" and carrying the current value of the node, when it ends
    with the success flag of the token true, and none when it ends with the
    flag false.  A write with a writing token sends exactly one
    notification, of kind "write" and without a value, when it ends with
    the flag true, and none when it ends with the flag false. *)
Theorem notification_iff_success
  (readRank : Env Store -> Child Store -> nat) (w : World Store) :
  (tokenClass (token (env w)) = VariableReadingToken ->
   let o := read readRank PyToken w in
   notifications (events o) =
   if Ok (token (env (world o)))
   then [("read", Some (currentValue (self (world o))))]
   else []) /\
  (tokenClass (token (env w)) = VariableWritingToken ->
   let o := write PyToken w in
   notifications (events o) =
   if Ok (token (env (world o))) then [("write", None)] else []).
Proof.
  split; intro Hcls; cbv zeta.
  - destruct (children_cases w) as [E|Hne].
    + rewrite (read_no_child readRank w Hcls E). reflexivity.
    + rewrite (read_children readRank w Hcls Hne). cbv zeta.
      cbn [result world events fst snd]. tidy.
      rewrite !notifications_app, notifications_reads.
      destruct (mutable (self w));
        destruct (Ok (token (after child_read _ _))); reflexivity.
  - destruct (children_cases w) as [E|Hne].
    + rewrite (write_no_child w Hcls E). reflexivity.
    + rewrite (write_children w Hcls Hne). cbv zeta.
      cbn [result world events fst snd]. tidy.
      change (ResetTokenChoppedIndexes :: ?l) with ([ResetTokenChoppedIndexes] ++ l).
      rewrite !notifications_app, notifications_writes.
      destruct (mutable (self w));
        destruct (Ok (token (after child_write _ _))); reflexivity.
Qed.

(** C5.  A read with a reading token and a write with a writing token go
    through the children in the order the aggregate holds them once the
    call is over.  The children called are exactly those the loop reaches
    in that order -- each child up to and including the first that leaves
    the success flag false --, so a beginning of the order that holds at
    least its first child, and the whole of it when every child passes;
    and what the call leaves (token, generator, state of the children) is
    what those children leave, each working on what the one before left.
    That order is a permutation of the children held before the call -- no
    child is lost or comes twice -- whether the aggregate is mutable (the
    order is then the one of [sortChildrenToRead], respectively
    [shuffleChildren]) or not.  When the aggregate is not mutable it is the
    order held before the call, the aggregate draws nothing from the random
    generator, and so the same inputs give the same result, token and
    calls; when moreover no child looks at the generator, the call does the
    same whatever the generator holds. *)
Theorem traversal_order
  (readRank : Env Store -> Child Store -> nat) (w : World Store) :
  (tokenClass (token (env w)) = VariableReadingToken ->
   let o := read readRank PyToken w in
   let order := children (self (world o)) in
   let called := visited child_read order (env w) in
   Permutation (children (self w)) order /\
   readCalls (events o) = map cid called /\
   (exists k, called = firstn k order) /\
   (children (self w) <> [] ->
    called <> [] /\ env (world o) = after child_read called (env w)) /\
   (passes child_read order (env w) = true -> called = order) /\
   (Ok (token (env (world o))) = true -> called = order) /\
   (mutable (self w) = false ->
    order = children (self w) /\
    ((forall c, In c (children (self w)) -> keepsRandom child_read c) ->
     forall r, read readRank PyToken (withRandom r w) =
               (result o, withRandom r (world o), events o)))) /\
  (tokenClass (token (env w)) = VariableWritingToken ->
   let o := write PyToken w in
   let order := children (self (world o)) in
   let called := visited child_write order (writeStart w) in
   Permutation (children (self w)) order /\
   writeCalls (events o) = map cid called /\
   (exists k, called = firstn k order) /\
   (children (self w) <> [] ->
    called <> [] /\ env (world o) = after child_write called (writeStart w)) /\
   (passes child_write order (writeStart w) = true -> called = order) /\
   (Ok (token (env (world o))) = true -> called = order) /\
   (mutable (self w) = false ->
    order = children (self w) /\
    writeStart w = env w /\
    ((forall c, In c (children (self w)) -> keepsRandom child_write c) ->
     forall r, write PyToken (withRandom r w) =
               (result o, withRandom r (world o), events o)))).
Proof.
  split; intro Hcls; cbv zeta.
  - destruct (read_order readRank w Hcls) as (Ho & Hc & He & Hf).
    rewrite Ho, Hc.
    pose proof (readOrder_permutation readRank w) as P.
    split; [exact P|]. split; [reflexivity|].
    split; [apply visited_prefix|]. split; [|split; [|split]].
    + intro Hne. split; [|now apply He].
      apply visited_not_empty. now apply (permutation_not_empty _ _ P).
    + apply visited_passes.
    + intro Hok. destruct (children_cases w) as [E|Hne].
      * rewrite (Hf E) in Hok. discriminate.
      * apply visited_all; [now apply (permutation_not_empty _ _ P)|].
        now rewrite <- (He Hne).
    + intro Hm. split.
      * unfold readOrder. now rewrite Hm.
      * intros Hk r. now apply read_keepsRandom.
  - destruct (write_order w Hcls) as (Ho & Hc & He & Hf).
    rewrite Ho, Hc.
    pose proof (writeOrder_permutation w) as P.
    split; [exact P|]. split; [reflexivity|].
    split; [apply visited_prefix|]. split; [|split; [|split]].
    + intro Hne. split; [|now apply He].
      apply visited_not_empty. now apply (permutation_not_empty _ _ P).
    + apply visited_passes.
    + intro Hok. destruct (children_cases w) as [E|Hne].
      * rewrite (Hf E) in Hok. discriminate.
      * apply visited_all; [now apply (permutation_not_empty _ _ P)|].
        now rewrite <- (He Hne).
    + intro Hm. split; [|split].
      * unfold writeOrder. now rewrite Hm.
      * unfold writeStart. now rewrite Hm.
      * intros Hk r. now apply write_keepsRandom.
Qed.

(** C6.  [buildRegex] returns the pattern the builder makes of the
    patterns of the children, taken in the order of [self.children]; it
    asks each child for its pattern once, in that order, without a token,
    and leaves the aggregate, the token and the random generator as they
    were.  The result is the same whatever the mutable flag, the token and
    the generator.  The pattern returned matches a string exactly when the
    string is the concatenation of pieces matched by the patterns of the
    children, one each, in order; its text is the texts of the children's
    patterns put end to end. *)
Theorem buildRegex_concatenates (w : World Store) :
  let o := buildRegex w in
  let patterns :=
    map (fun c => child_buildRegex c (store (env w))) (children (self w)) in
  result o = Return (buildRegexForAggregateRegexes patterns) /\
  world o = w /\
  events o = map (fun c => CallBuildRegex (cid c)) (children (self w)) /\
  (forall m, result (buildRegex (withSelf (setMutable m (self w)) w))
             = result o) /\
  (forall r, result o = Return r ->
     regexText r = join (map regexText patterns) /\
     forall s, regexMatches r s = true <->
       exists pieces,
         join pieces = s /\
         Forall2 (fun p piece => regexMatches p piece = true) patterns pieces) /\
  (forall t r, result (buildRegex (withRandom r (withToken t w))) = result o).
Proof.
  cbv zeta. rewrite (buildRegex_run w). cbn [result world events fst snd].
  split; [reflexivity|]. split; [reflexivity|]. split; [reflexivity|].
  split; [|split].
  - intro m. rewrite buildRegex_run. reflexivity.
  - intros r Hr. injection Hr as <-. split; [reflexivity|].
    intro s. cbn [buildRegexForAggregateRegexes regexMatches].
    rewrite matchesInOrder_spec. split; intros [pieces [Hj HF]];
      exists pieces; (split; [exact Hj|]).
    + clear Hj. revert pieces HF.
      induction (children (self w)) as [|c cs IH]; intros pieces HF;
        inversion HF; subst; constructor; auto.
    + clear Hj. revert pieces HF.
      induction (children (self w)) as [|c cs IH]; intros pieces HF;
        inversion HF; subst; constructor; auto.
  - intros t r. rewrite buildRegex_run. reflexivity.
Qed.

(** C7.  A write with a writing token first resets the chopped indexes of
    the node: the reset is the first thing recorded, before the shuffle and
    before any call to a child, whether the aggregate has children or not
    and whether the write then succeeds or not; nothing of the indexes held
    before is left, and the write does the same whatever they were. *)
Theorem write_resets_first (w : World Store) :
  tokenClass (token (env w)) = VariableWritingToken ->
  let o := write PyToken w in
  (exists rest, events o = ResetTokenChoppedIndexes :: rest /\
                ~ In ResetTokenChoppedIndexes rest) /\
  tokenChoppedIndexes (self (world o)) = [] /\
  (forall l, write PyToken (withSelf (setTokenChoppedIndexes l (self w)) w) = o).
Proof.
  intro Hcls. cbv zeta. destruct (children_cases w) as [E|Hne].
  - rewrite (write_no_child w Hcls E).
    cbn [result world events fst snd self].
    split; [exists []; split; [reflexivity | intros []]|].
    split; [reflexivity|].
    intro l. rewrite write_no_child; [reflexivity | exact Hcls | exact E].
  - rewrite (write_children w Hcls Hne). cbv zeta.
    cbn [result world events fst snd self].
    split; [|split; [reflexivity|]].
    + eexists. split; [reflexivity|].
      rewrite !in_app_iff, in_map_iff.
      intros [H|[[x [H _]]|H]].
      * destruct (mutable (self w)); [destruct H as [H|[]]; discriminate | destruct H].
      * discriminate.
      * destruct (Ok _); [destruct H as [H|[]]; discriminate | destruct H].
    + intro l. rewrite write_children; [reflexivity | exact Hcls | exact Hne].
Qed.

(** C8.  On an aggregate without children [buildRegex] does not raise: it
    returns the pattern the builder makes of no pattern at all, which has
    the empty text, matches the empty string and nothing else, and is
    neutral when put before or after another pattern; nothing is changed.
    On the same aggregate a read and a write leave the success flag
    false. *)
Theorem buildRegex_no_child
  (readRank : Env Store -> Child Store -> nat) (w : World Store) :
  children (self w) = [] ->
  (exists r,
     buildRegex w = (Return r, w, []) /\
     regexText r = EmptyString /\
     (forall s, regexMatches r s = true <-> s = EmptyString) /\
     (forall p s,
        regexMatches (buildRegexForAggregateRegexes [r; p]) s
        = regexMatches (buildRegexForAggregateRegexes [p]) s /\
        regexMatches (buildRegexForAggregateRegexes [p; r]) s
        = regexMatches (buildRegexForAggregateRegexes [p]) s)) /\
  (tokenClass (token (env w)) = VariableReadingToken ->
   Ok (token (env (world (read readRank PyToken w)))) = false) /\
  (tokenClass (token (env w)) = VariableWritingToken ->
   Ok (token (env (world (write PyToken w)))) = false).
Proof.
  intro Hcs. split; [|split].
  - exists (buildRegexForAggregateRegexes []).
    rewrite (buildRegex_run w), Hcs. cbn [map].
    split; [reflexivity|]. split; [reflexivity|]. split.
    + apply empty_pattern_matches.
    + apply empty_pattern_neutral.
  - intro Hcls. now rewrite (read_no_child readRank w Hcls Hcs).
  - intro Hcls. now rewrite (write_no_child w Hcls Hcs).
Qed.

(** C9.  Handed [None] for the token, each of [isDefined], [read] and
    [write] raises a [TypeError]; nothing is caught, no call is made, and
    the aggregate, the token and the random generator are as they were. *)
Theorem absent_token_raises
  (readRank : Env Store -> Child Store -> nat) (w : World Store) :
  isDefined PyNone w =
    (Raise (TypeError "processingToken cannot be None"), w, []) /\
  read readRank PyNone w =
    (Raise (TypeError "readingToken cannot be None"), w, []) /\
  write PyNone w =
    (Raise (TypeError "writingToken cannot be None"), w, []).
Proof.
  unfold isDefined, read, write, typeCheck. cbn [is_None].
  repeat split; step; reflexivity.
Qed.

(** C10.  A token that is present but is not a reading token makes [read]
    raise a [TypeError], and one that is not a writing token makes [write]
    raise a [TypeError]; in both cases no call is made and the aggregate
    and the token are as they were.  [isDefined] raises for no class of
    processing token: it returns an answer for a reading token, a writing
    token and any other processing token. *)
Theorem token_kind_enforced
  (readRank : Env Store -> Child Store -> nat) (w : World Store) :
  (tokenClass (token (env w)) <> VariableReadingToken ->
   exists msg, read readRank PyToken w = (Raise (TypeError msg), w, [])) /\
  (tokenClass (token (env w)) <> VariableWritingToken ->
   exists msg, write PyToken w = (Raise (TypeError msg), w, [])) /\
  (exists answer, result (isDefined PyToken w) = Return answer).
Proof.
  split; [|split].
  - intro Hcls. eexists. unfold read, typeCheck. step.
    destruct (tokenClass (token (env w))); try contradiction;
      cbn [isinstance TokenClass_eqb]; step; reflexivity.
  - intro Hcls. eexists. unfold write, typeCheck. step.
    destruct (tokenClass (token (env w))); try contradiction;
      cbn [isinstance TokenClass_eqb]; step; reflexivity.
  - rewrite isDefined_run. eexists. reflexivity.
Qed.

(** * Further properties of the methods *)

(** X3.  The children are reordered only on a mutable aggregate that has a
    child.  A read sorts them exactly then, once, before anything else; a
    write shuffles them exactly then, once, right after the reset and
    before any child writes.  A mutable aggregate without children is
    neither sorted nor shuffled. *)
Theorem reorder_needs_mutable_and_child
  (readRank : Env Store -> Child Store -> nat) (w : World Store) :
  (tokenClass (token (env w)) = VariableReadingToken ->
   let o := read readRank PyToken w in
   (In SortChildrenToRead (events o) <->
    mutable (self w) = true /\ children (self w) <> []) /\
   (In SortChildrenToRead (events o) ->
    exists rest, events o = SortChildrenToRead :: rest /\
                 ~ In SortChildrenToRead rest)) /\
  (tokenClass (token (env w)) = VariableWritingToken ->
   let o := write PyToken w in
   (In ShuffleChildren (events o) <->
    mutable (self w) = true /\ children (self w) <> []) /\
   (In ShuffleChildren (events o) ->
    exists rest,
      events o = ResetTokenChoppedIndexes :: ShuffleChildren :: rest /\
      ~ In ShuffleChildren rest)).
Proof.
  split; intro Hcls; cbv zeta.
  - destruct (children_cases w) as [E|Hne].
    + rewrite (read_no_child readRank w Hcls E). cbn [events snd].
      split; [split; [intros [] | intros [_ H]; contradiction] | intros []].
    + rewrite (read_children readRank w Hcls Hne). cbv zeta. cbn [events snd].
      assert (Hrest : forall (seen : list (Child Store)) (b : bool) v,
                ~ In SortChildrenToRead
                    (map (fun c => CallRead (cid c)) seen
                     ++ (if b then [Notify "read" v] else []))).
      { intros seen b v. rewrite in_app_iff, in_map_iff.
        intros [[x [H _]]|H]; [discriminate|].
        destruct b; [destruct H as [H|[]]; discriminate | destruct H]. }
      destruct (mutable (self w)); cbn [app].
      * split; [split; [now split | intros _; now left]|].
        intros _. eexists. split; [reflexivity | apply Hrest].
      * split; [split; [intro H; now apply Hrest in H | intros [H _]; discriminate]|].
        intro H. now apply Hrest in H.
  - destruct (children_cases w) as [E|Hne].
    + rewrite (write_no_child w Hcls E). cbn [events snd].
      split; [split; [intros [H|[]]; discriminate | intros [_ H]; contradiction]|].
      intros [H|[]]; discriminate.
    + rewrite (write_children w Hcls Hne). cbv zeta. cbn [events snd].
      assert (Hrest : forall (seen : list (Child Store)) (b : bool),
                ~ In ShuffleChildren
                    (map (fun c => CallWrite (cid c)) seen
                     ++ (if b then [Notify "write" None] else []))).
      { intros seen b. rewrite in_app_iff, in_map_iff.
        intros [[x [H _]]|H]; [discriminate|].
        destruct b; [destruct H as [H|[]]; discriminate | destruct H]. }
      destruct (mutable (self w)); cbn [app].
      * split; [split; [now split | intros _; right; now left]|].
        intros _. eexists. split; [reflexivity | apply Hrest].
      * split.
        -- split; [|intros [H _]; discriminate].
           intros [H|H]; [discriminate | now apply Hrest in H].
        -- intros [H|H]; [discriminate | now apply Hrest in H].
Qed.

(** X4.  When a read or a write sends its notification, that is the last
    thing it does: every call to a child comes before it, and nothing is
    called after it. *)
Theorem notification_comes_last
  (readRank : Env Store -> Child Store -> nat) (w : World Store) :
  (tokenClass (token (env w)) = VariableReadingToken ->
   let o := read readRank PyToken w in
   exists body,
     notifications body = [] /\
     readCalls body = readCalls (events o) /\
     (events o = body \/ exists v, events o = body ++ [Notify "read" v])) /\
  (tokenClass (token (env w)) = VariableWritingToken ->
   let o := write PyToken w in
   exists body,
     notifications body = [] /\
     writeCalls body = writeCalls (events o) /\
     (events o = body \/ events o = body ++ [Notify "write" None])).
Proof.
  split; intro Hcls; cbv zeta.
  - destruct (children_cases w) as [E|Hne].
    + rewrite (read_no_child readRank w Hcls E). cbn [events snd].
      exists []. repeat split. now left.
    + rewrite (read_children readRank w Hcls Hne). cbv zeta. cbn [events snd].
      match goal with
      | |- context [?a ++ ?b ++ (if ?c then _ else _)] => exists (a ++ b)
      end.
      rewrite app_assoc. split; [|split].
      * rewrite notifications_app, notifications_reads.
        destruct (mutable (self w)); reflexivity.
      * rewrite !readCalls_app.
        destruct (Ok _); symmetry; apply app_nil_r.
      * destruct (Ok _); [right; eexists; reflexivity|].
        left. now rewrite app_nil_r.
  - destruct (children_cases w) as [E|Hne].
    + rewrite (write_no_child w Hcls E). cbn [events snd].
      exists [ResetTokenChoppedIndexes]. repeat split. now left.
    + rewrite (write_children w Hcls Hne). cbv zeta. cbn [events snd].
      change (ResetTokenChoppedIndexes :: ?l)
        with ([ResetTokenChoppedIndexes] ++ l).
      match goal with
      | |- context [?r ++ ?a ++ ?b ++ (if ?c then _ else _)] =>
          exists (r ++ a ++ b)
      end.
      rewrite !app_assoc. split; [|split].
      * rewrite !notifications_app, notifications_writes.
        destruct (mutable (self w)); reflexivity.
      * rewrite !writeCalls_app.
        destruct (Ok _); symmetry; apply app_nil_r.
      * destruct (Ok _); [right; reflexivity|].
        left. now rewrite app_nil_r.
Qed.

(** X5.  All or nothing.  A read (a write) ends with the success flag of
    the token true exactly when the aggregate has a child and every child,
    taken in the order the aggregate holds them after the call and working
    on what the one before left, leaves the flag true.  What the call
    leaves is then what all the children leave, having worked in turn: the
    aggregate itself changes nothing in the token. *)
Theorem succeeds_iff_all_children_pass
  (readRank : Env Store -> Child Store -> nat) (w : World Store) :
  (tokenClass (token (env w)) = VariableReadingToken ->
   let o := read readRank PyToken w in
   let order := children (self (world o)) in
   (Ok (token (env (world o))) = true <->
    children (self w) <> [] /\ passes child_read order (env w) = true) /\
   (Ok (token (env (world o))) = true ->
    env (world o) = after child_read order (env w))) /\
  (tokenClass (token (env w)) = VariableWritingToken ->
   let o := write PyToken w in
   let order := children (self (world o)) in
   (Ok (token (env (world o))) = true <->
    children (self w) <> [] /\
    passes child_write order (writeStart w) = true) /\
   (Ok (token (env (world o))) = true ->
    env (world o) = after child_write order (writeStart w))).
Proof.
  split; intro Hcls; cbv zeta.
  - destruct (children_cases w) as [E|Hne].
    + rewrite (read_no_child readRank w Hcls E).
      cbn [world fst snd]. tidy. cbn [setOk Ok].
      split; [|discriminate].
      split; [discriminate | intros [H _]; contradiction].
    + pose proof (permutation_not_empty _ _
                    (readOrder_permutation readRank w) Hne) as Ho.
      rewrite (read_children readRank w Hcls Hne). cbv zeta.
      cbn [world fst snd]. tidy.
      rewrite (passes_visited _ _ _ Ho). split.
      * split; [intro H; now split | intros [_ H]; exact H].
      * intro H. now rewrite (visited_passes _ _ _ H).
  - destruct (children_cases w) as [E|Hne].
    + rewrite (write_no_child w Hcls E).
      cbn [world fst snd]. tidy. cbn [setOk Ok].
      split; [|discriminate].
      split; [discriminate | intros [H _]; contradiction].
    + pose proof (permutation_not_empty _ _
                    (writeOrder_permutation w) Hne) as Ho.
      rewrite (write_children w Hcls Hne). cbv zeta.
      cbn [world fst snd]. tidy.
      rewrite (passes_visited _ _ _ Ho). split.
      * split; [intro H; now split | intros [_ H]; exact H].
      * intro H. now rewrite (visited_passes _ _ _ H).
Qed.

(** X6.  What [isDefined] asks.  When it answers true, it has asked every
    child, once each, in the order of [self.children].  When it answers
    false on an aggregate that has children, there is a culprit: the last
    child asked is undefined, and all the children before it are defined
    and were asked, in order.  Neither the mutable flag nor the random
    generator has any part in the answer or in the calls made. *)
Theorem isDefined_examines (w : World Store) :
  let o := isDefined PyToken w in
  let defined := fun c => child_isDefined c (token (env w)) (store (env w)) in
  (result o = Return true ->
   events o = map (fun c => CallIsDefined (cid c)) (children (self w))) /\
  (result o = Return false -> children (self w) <> [] ->
   exists pre c post,
     children (self w) = pre ++ c :: post /\
     forallb defined pre = true /\ defined c = false /\
     events o = map (fun d => CallIsDefined (cid d)) (pre ++ [c])) /\
  (forall m r,
     let o' := isDefined PyToken
                 (withRandom r (withSelf (setMutable m (self w)) w)) in
     result o' = result o /\ events o' = events o).
Proof.
  cbv zeta. rewrite (isDefined_run w). cbn [result events fst snd].
  unfold definedAnswer. split; [|split].
  - intro H. injection H as H. apply andb_true_iff in H. destruct H as [_ H].
    now rewrite (examined_all _ _ _ H).
  - intros H Hne. injection H as H.
    destruct (children (self w)) as [|x l] eqn:E; [contradiction|].
    cbn [negb andb] in H.
    destruct (forallb_culprit _ _ H) as (pre & c & post & Hl & Hpre & Hc).
    exists pre, c, post. rewrite Hl.
    repeat split; try assumption.
    now rewrite (examined_stops _ _ _ _ _ Hpre Hc).
  - intros m r. rewrite isDefined_run. cbn [result events fst snd].
    split; reflexivity.
Qed.

End Properties.

(** * The worked aggregate *)

Lemma read_stops_at_first_failure_witness :
  let o := read Sample.byId PyToken
             (Sample.start VariableReadingToken false
                [Sample.A; Sample.B; Sample.C]) in
  readCalls (events o) = [1; 2] /\ Ok (token (env (world o))) = false.
Proof.
  destruct (read_stops_at_first_failure Sample.byId
              (Sample.start VariableReadingToken false
                 [Sample.A; Sample.B; Sample.C])
              [Sample.A] [Sample.C] Sample.B
              eq_refl eq_refl eq_refl eq_refl)
    as (_ & _ & Hcalls & _ & Hok & _).
  split; [exact Hcalls | exact Hok].
Defined.

Lemma no_child_fails_witness :
  (forall m,
     Ok (token (env (world (read Sample.byId PyToken
                              (Sample.start VariableReadingToken m [])))))
     = false) /\
  (forall m,
     Ok (token (env (world (write PyToken
                              (Sample.start VariableWritingToken m [])))))
     = false).
Proof.
  split; intro m.
  - destruct (no_child_fails Sample.byId
                (Sample.start VariableReadingToken m []) eq_refl)
      as [Hread _].
    destruct (Hread eq_refl) as (_ & _ & Hok & _). exact Hok.
  - destruct (no_child_fails Sample.byId
                (Sample.start VariableWritingToken m []) eq_refl)
      as [_ Hwrite].
    destruct (Hwrite eq_refl) as (_ & _ & Hok & _). exact Hok.
Defined.

Lemma isDefined_all_children_witness :
  result (isDefined PyToken
            (Sample.start VariableWritingToken false
               [Sample.A; Sample.B; Sample.C])) = Return false /\
  events (isDefined PyToken
            (Sample.start VariableWritingToken false
               [Sample.A; Sample.B; Sample.C]))
  = [CallIsDefined 1; CallIsDefined 2] /\
  result (isDefined PyToken
            (Sample.start VariableWritingToken false
               [Sample.C; Sample.B; Sample.A])) = Return false.
Proof.
  destruct (isDefined_all_children
              (Sample.start VariableWritingToken false
                 [Sample.A; Sample.B; Sample.C]))
    as (_ & _ & Hstop & Horder).
  destruct (Hstop [Sample.A] Sample.B [Sample.C]) as [Hr He];
    [reflexivity | repeat constructor | reflexivity |].
  split; [exact Hr | split; [exact He |]].
  rewrite (Horder (Sample.start VariableWritingToken false
                     [Sample.C; Sample.B; Sample.A]) eq_refl eq_refl).
  - exact Hr.
  - cbn [Sample.start self children Sample.agg].
    apply Permutation_sym, Permutation_rev.
Defined.

Lemma notification_iff_success_witness :
  notifications (events (read Sample.byId PyToken
                           (Sample.start VariableReadingToken false
                              [Sample.A; Sample.C])))
  = [("read", Some "old")] /\
  notifications (events (write PyToken
                           (Sample.start VariableWritingToken true
                              [Sample.A; Sample.B])))
  = [].
Proof.
  split.
  - exact (proj1 (notification_iff_success Sample.byId
                    (Sample.start VariableReadingToken false
                       [Sample.A; Sample.C])) eq_refl).
  - exact (proj2 (notification_iff_success Sample.byId
                    (Sample.start VariableWritingToken true
                       [Sample.A; Sample.B])) eq_refl).
Defined.

Lemma sample_keepsRandom (cs : list (Child unit)) :
  Forall (fun c => In c [Sample.A; Sample.B; Sample.C]) cs ->
  forall c, In c cs -> keepsRandom child_write c.
Proof.
  intros H c Hc. rewrite Forall_forall in H.
  destruct (H c Hc) as [<-|[<-|[<-|[]]]]; intros r e; reflexivity.
Qed.

Lemma traversal_order_witness :
  readCalls (events (read Sample.byIdDesc PyToken
                       (Sample.start VariableReadingToken true
                          [Sample.A; Sample.C])))
  = [3; 1] /\
  writeCalls (events (write PyToken
                        (Sample.start VariableWritingToken false
                           [Sample.A; Sample.B; Sample.C])))
  = [1; 2] /\
  position (token (env (world (write PyToken
                                 (withRandom [7]
                                    (Sample.start VariableWritingToken false
                                       [Sample.A; Sample.C]))))))
  = 20.
Proof.
  split; [|split].
  - destruct (proj1 (traversal_order Sample.byIdDesc
                       (Sample.start VariableReadingToken true
                          [Sample.A; Sample.C])) eq_refl)
      as (_ & Hcalls & _).
    exact Hcalls.
  - destruct (proj2 (traversal_order Sample.byIdDesc
                       (Sample.start VariableWritingToken false
                          [Sample.A; Sample.B; Sample.C])) eq_refl)
      as (_ & Hcalls & _).
    exact Hcalls.
  - destruct (proj2 (traversal_order Sample.byIdDesc
                       (Sample.start VariableWritingToken false
                          [Sample.A; Sample.C])) eq_refl)
      as (_ & _ & _ & _ & _ & _ & Hsame).
    destruct (Hsame eq_refl) as (_ & _ & Hany).
    rewrite Hany; [reflexivity|].
    apply sample_keepsRandom.
    constructor; [now left | constructor; [right; right; now left | constructor]].
Defined.

Lemma buildRegex_concatenates_witness :
  exists r,
    result (buildRegex (Sample.start VariableReadingToken true
                          [Sample.A; Sample.C])) = Return r /\
    regexText r = "(68656c6c6f)(.{10,20})" /\
    regexMatches r "68656c6c6f0011223344" = true.
Proof.
  destruct (buildRegex_concatenates
              (Sample.start VariableReadingToken true [Sample.A; Sample.C]))
    as (Hr & _ & _ & _ & Hsem & _).
  eexists. split; [exact Hr|].
  destruct (Hsem _ Hr) as [Htext Hmatch]. split; [exact Htext|].
  apply Hmatch. exists ["68656c6c6f"; "0011223344"].
  split; [reflexivity | repeat constructor].
Defined.

Lemma write_resets_first_witness :
  events (write PyToken
            (Sample.start VariableWritingToken true [Sample.A; Sample.B]))
  = ResetTokenChoppedIndexes ::
    tl (events (write PyToken
                  (Sample.start VariableWritingToken true
                     [Sample.A; Sample.B]))) /\
  tokenChoppedIndexes
    (self (world (write PyToken
                    (Sample.start VariableWritingToken true
                       [Sample.A; Sample.B])))) = [].
Proof.
  destruct (write_resets_first
              (Sample.start VariableWritingToken true [Sample.A; Sample.B])
              eq_refl) as ([rest [Hev _]] & Hreset & _).
  split; [rewrite Hev; reflexivity | exact Hreset].
Defined.

Lemma buildRegex_no_child_witness :
  exists r,
    buildRegex (Sample.start VariableWritingToken false [])
    = (Return r, Sample.start VariableWritingToken false [], []) /\
    regexText r = EmptyString /\
    Ok (token (env (world (write PyToken
                             (Sample.start VariableWritingToken false [])))))
    = false.
Proof.
  destruct (buildRegex_no_child Sample.byId
              (Sample.start VariableWritingToken false []) eq_refl)
    as ([r (Hr & Htext & _)] & _ & Hwrite).
  exists r. split; [exact Hr|]. split; [exact Htext|].
  exact (Hwrite eq_refl).
Defined.

Lemma token_kind_enforced_witness :
  (exists msg,
     read Sample.byId PyToken
       (Sample.start VariableWritingToken false [Sample.A])
     = (Raise (TypeError msg),
        Sample.start VariableWritingToken false [Sample.A], [])) /\
  (exists msg,
     write PyToken (Sample.start VariableReadingToken false [Sample.A])
     = (Raise (TypeError msg),
        Sample.start VariableReadingToken false [Sample.A], [])).
Proof.
  split.
  - apply (proj1 (token_kind_enforced Sample.byId
                    (Sample.start VariableWritingToken false [Sample.A]))).
    discriminate.
  - apply (proj1 (proj2 (token_kind_enforced Sample.byId
                    (Sample.start VariableReadingToken false [Sample.A])))).
    discriminate.
Defined.

Lemma reorder_needs_mutable_and_child_witness :
  ~ In ShuffleChildren
      (events (write PyToken (Sample.start VariableWritingToken true []))) /\
  In SortChildrenToRead
     (events (read Sample.byId PyToken
                (Sample.start VariableReadingToken true [Sample.A]))).
Proof.
  split.
  - intro H.
    apply (proj1 (proj2 (reorder_needs_mutable_and_child Sample.byId
                           (Sample.start VariableWritingToken true []))
                    eq_refl)) in H.
    destruct H as [_ H]. now apply H.
  - apply (proj1 (proj1 (reorder_needs_mutable_and_child Sample.byId
                           (Sample.start VariableReadingToken true [Sample.A]))
                    eq_refl)).
    split; [reflexivity | discriminate].
Defined.

Lemma notification_comes_last_witness :
  exists body,
    notifications body = [] /\
    events (write PyToken
              (Sample.start VariableWritingToken false [Sample.A; Sample.C]))
    = body ++ [Notify "write" None].
Proof.
  destruct (proj2 (notification_comes_last Sample.byId
                     (Sample.start VariableWritingToken false
                        [Sample.A; Sample.C])) eq_refl)
    as [body (Hn & _ & [H|H])].
  - exfalso. rewrite <- H in Hn. discriminate Hn.
  - exists body. split; [exact Hn | exact H].
Defined.

Lemma succeeds_iff_all_children_pass_witness :
  Ok (token (env (world (read Sample.byId PyToken
                           (Sample.start VariableReadingToken false
                              [Sample.A; Sample.C]))))) = true /\
  position (token (env (world (read Sample.byId PyToken
                                 (Sample.start VariableReadingToken false
                                    [Sample.A; Sample.C]))))) = 20.
Proof.
  destruct (proj1 (succeeds_iff_all_children_pass Sample.byId
                     (Sample.start VariableReadingToken false
                        [Sample.A; Sample.C])) eq_refl)
    as [Hiff Htok].
  assert (Hok : Ok (token (env (world (read Sample.byId PyToken
                      (Sample.start VariableReadingToken false
                         [Sample.A; Sample.C]))))) = true).
  { apply Hiff. split; [discriminate | reflexivity]. }
  split; [exact Hok|].
  rewrite (Htok Hok). reflexivity.
Defined.

Lemma isDefined_examines_witness :
  exists pre c post,
    [Sample.A; Sample.C; Sample.B; Sample.C] = pre ++ c :: post /\
    child_isDefined c (Sample.tok VariableReadingToken) tt = false /\
    events (isDefined PyToken
              (Sample.start VariableReadingToken true
                 [Sample.A; Sample.C; Sample.B; Sample.C]))
    = map (fun d => CallIsDefined (cid d)) (pre ++ [c]).
Proof.
  destruct (isDefined_examines
              (Sample.start VariableReadingToken true
                 [Sample.A; Sample.C; Sample.B; Sample.C]))
    as (_ & Hfalse & _).
  destruct (Hfalse eq_refl) as (pre & c & post & Hl & _ & Hc & He).
  - discriminate.
  - exists pre, c, post. split; [exact Hl|]. split; [exact Hc | exact He].
Defined.

(** ** An aggregate among the children *)

(** An aggregate that is not mutable draws nothing itself, but a mutable
    aggregate among its children does: the parent calls its one child and
    does not shuffle, and what is written depends on the draws. *)
Lemma nested_mutable_child_uses_generator :
  events (write PyToken (Sample.nested true [0; 0]))
  = [ResetTokenChoppedIndexes; CallWrite 7; Notify "write" None] /\
  tokenValue (token (env (world (write PyToken (Sample.nested true [0; 0])))))
  = "68656c6c6f0011223344ab" /\
  tokenValue (token (env (world (write PyToken (Sample.nested true [0; 1])))))
  = "68656c6c6f0011223344ba" /\
  random (env (world (write PyToken (Sample.nested true [0; 1; 5])))) = [5] /\
  ~ keepsRandom child_write (aggChild (Store:=unit) 7 Sample.byId).
Proof.
  repeat split.
  intro H.
  specialize (H [0; 1] (env (Sample.nested true [0; 0]))).
  apply (f_equal (fun e => tokenValue (token e))) in H.
  vm_compute in H. discriminate H.
Qed.
